(** * Spacetime hashing (lib_sthash.js): embedding and verified properties

    The library turns a spacetime record (a time interval and a lat/lng)
    into a list of truncated HMAC-SHA256 tokens: the interval is quantified
    to step-aligned timestamps, the coordinates are quantified to a grid, and
    every timestamp is combined with the points of an empty square around
    the quantified centre.

    Modelling choices.
    - A JavaScript number is an exact rational ([Qc], canonical fractions, so
      that equal numbers are equal terms).  Rounding of binary64 arithmetic is
      not modelled; integer-valued parameters that the source documents as
      [int] ([latlng_precision], [spread_out]) and loop counters are [Z].
    - [ret.push(x)] on the result array is [ret ++ [x]], threaded through the
      loops as an explicit accumulator.
    - The counting loops over integers terminate on every input and are
      defined by well-founded recursion.  The loop of [quantifyDuration] need
      not terminate (negative step), so it takes fuel and its result is an
      [outcome]: a value, a thrown error, or fuel exhaustion.
    - js-sha256 (an external package) is modelled by the algorithm it
      implements: SHA-256 of FIPS 180-4 and HMAC of RFC 2104, hex-encoded. *)

From Equations Require Import Equations.
From Stdlib Require Import ZArith QArith Qcanon Qround Qpower Qabs.
From Stdlib Require Import List Lia Lqa Bool String Ascii DecimalString.
Import ListNotations.

(** ** Numbers *)

Module JS.

Abbreviation Number := Qc (only parsing).

(** A numeric literal. *)
Definition num (q : Q) : Number := Q2Qc q.

Definition of_Z (z : Z) : Number := Q2Qc (inject_Z z).

(** The integer below and the integer above. *)
Definition floor (x : Number) : Z := Qfloor x.
Definition ceil (x : Number) : Z := Qceiling x.

(** [Math.floor] and [Math.ceil]. *)
Definition Math_floor (x : Number) : Number := of_Z (floor x).
Definition Math_ceil (x : Number) : Number := of_Z (ceil x).

(** [x <= y] as the loop test evaluates it. *)
Definition leb (x y : Number) : bool := Qle_bool x y.

(** [b ** e] for an integer exponent; a negative exponent inverts. *)
Definition pow (b : Number) (e : Z) : Number := Q2Qc (Qpower b e).

(** Truncation toward zero, as an integer. *)
Definition trunc (x : Number) : Z :=
  if leb 0%Qc x then floor x else ceil x.

(** [Number.prototype.toString] on the numbers exact arithmetic can
    print: sign, integer digits and, when the fraction is not zero, a point
    and the fraction digits with no trailing zero.  This is what the host
    prints for decimal numbers of ordinary magnitude (no exponent form).
    The digit loop is bounded by the size of the denominator, which is
    enough for every finite decimal expansion. *)
Fixpoint frac_digits (n : nat) (r d : Z) : string :=
  match n with
  | O => EmptyString
  | S n' =>
      if (r =? 0)%Z then EmptyString
      else String (ascii_of_N (48 + Z.to_N (r * 10 / d)))
             (frac_digits n' ((r * 10) mod d) d)
  end.

Definition toString (x : Number) : string :=
  let n := Qnum x in
  let d := Zpos (Qden x) in
  let a := Z.abs n in
  let sign := if (n <? 0)%Z then "-"%string else EmptyString in
  let int_part := NilZero.string_of_uint (N.to_uint (Z.to_N (a / d))) in
  let r := (a mod d)%Z in
  let frac :=
    if (r =? 0)%Z then EmptyString
    else String "."%char (frac_digits (Pos.size_nat (Qden x)) r d) in
  (sign ++ int_part ++ frac)%string.

(** [s.substr(start, len)]. *)
Definition substr (s : string) (start len : nat) : string :=
  substring start len s.

End JS.

Import JS.

(** ** Outcomes of a call *)

(** The error kinds of the specification's taxonomy. *)
Inductive error : Type :=
| InvalidArgument
| ConfigurationError.

(** A call returns a value, throws, or is still running when the fuel is
    spent. *)
Inductive outcome (A : Type) : Type :=
| Done (a : A)
| Throws (e : error)
| OutOfFuel.

Arguments Done {A} a.
Arguments Throws {A} e.
Arguments OutOfFuel {A}.

Definition bind {A B : Type} (m : outcome A) (k : A -> outcome B) : outcome B :=
  match m with
  | Done a => k a
  | Throws e => Throws e
  | OutOfFuel => OutOfFuel
  end.

Notation "x <- m ;; k" := (bind m (fun x => k))
  (at level 61, m at next level, right associativity).


(** ** Counting loops *)

(** [for (let i = lo; i <= hi; i++) s = body(i, s)] *)
Equations? for_up {S : Type} (i hi : Z) (body : Z -> S -> S) (s : S) : S
  by wf (Z.to_nat (hi + 1 - i)) lt :=
  for_up i hi body s with Z_le_gt_dec i hi => {
    | left _ := for_up (i + 1) hi body (body i s);
    | right _ := s }.
Proof. lia. Qed.

(** [for (let i = hi; i >= lo; i--) s = body(i, s)] *)
Equations? for_down {S : Type} (i lo : Z) (body : Z -> S -> S) (s : S) : S
  by wf (Z.to_nat (i + 1 - lo)) lt :=
  for_down i lo body s with Z_le_gt_dec lo i => {
    | left _ := for_down (i - 1) lo body (body i s);
    | right _ := s }.
Proof. lia. Qed.

Local Open Scope Qc_scope.

(** ** quantifyDuration *)

(** [for(let t = begin; t <= end; t += step) ret.push(t)] *)
Fixpoint quantifyDuration_loop (fuel : nat) (t end_ step : Number)
    (ret : list Number) : outcome (list Number) :=
  if leb t end_ then
    match fuel with
    | O => OutOfFuel
    | S fuel' => quantifyDuration_loop fuel' (t + step) end_ step (ret ++ [t])
    end
  else Done ret.

(** With [step] zero the quotients are infinite or NaN and their products
    with [step] are NaN, so the loop test [t <= end] is false at once and the
    empty array is returned; exact arithmetic has no such values, hence the
    explicit case. *)
Definition quantifyDuration (fuel : nat) (begin_ end_ time_step_in_mins : Number)
    : outcome (list Number) :=
  let step := time_step_in_mins * num 60 in
  if Qc_eq_bool step 0 then Done []
  else
    let begin := Math_floor (begin_ / step) * step in
    let end' := Math_ceil (end_ / step) * step in
    quantifyDuration_loop fuel begin end' step [].

(** ** quantifyLatLng *)

(** Modelled from the spec: [utils.shuffleFloat] (utils.js) is not among the
    sources.  Section 4.2 says the quantified coordinate is obtained "by
    truncating (not rounding) each coordinate to the decimal digit position
    implied by precision, zeroing all digits beyond it".  The call site passes
    the digit range [lsd = msd = latlng_precision - 1] and the mask ['0'], and
    reads the result back with [parseFloat]; the model is the number read
    back: the digits at position [lsd] and below are zero, which is truncation
    toward zero to a multiple of [10 ** (lsd + 1)]. *)
Definition shuffleFloat (f : Number) (msd lsd : Z) (mask : ascii) : Number :=
  let unit := pow (num 10) (lsd + 1) in
  of_Z (trunc (f / unit)) * unit.

Definition quantifyLatLng (lat lng : Number) (latlng_precision : Z)
    : Number * Number * Number * Number :=
  let lat_step := pow (num 10) latlng_precision in
  let lng_step := pow (num 10) latlng_precision in
  (shuffleFloat lat (latlng_precision - 1) (latlng_precision - 1) "0",
   shuffleFloat lng (latlng_precision - 1) (latlng_precision - 1) "0",
   lat_step,
   lng_step).

(** ** js-sha256: [sha256.hmac] *)

Module Sha256.

Local Open Scope Z_scope.

Definition word := Z.

Definition w32 (x : Z) : word := x mod 2 ^ 32.

Definition add32 (x y : word) : word := w32 (x + y).

Definition rotr (n : Z) (x : word) : word :=
  Z.lor (Z.shiftr x n) (w32 (Z.shiftl x (32 - n))).

Definition ch (x y z : word) : word :=
  Z.lxor (Z.land x y) (Z.land (Z.lxor x (2 ^ 32 - 1)) z).

Definition maj (x y z : word) : word :=
  Z.lxor (Z.lxor (Z.land x y) (Z.land x z)) (Z.land y z).

Definition bsig0 (x : word) : word :=
  Z.lxor (Z.lxor (rotr 2 x) (rotr 13 x)) (rotr 22 x).

Definition bsig1 (x : word) : word :=
  Z.lxor (Z.lxor (rotr 6 x) (rotr 11 x)) (rotr 25 x).

Definition ssig0 (x : word) : word :=
  Z.lxor (Z.lxor (rotr 7 x) (rotr 18 x)) (Z.shiftr x 3).

Definition ssig1 (x : word) : word :=
  Z.lxor (Z.lxor (rotr 17 x) (rotr 19 x)) (Z.shiftr x 10).

(** The round constants and the initial state are the leading fraction
    bits of the cube and square roots of the first primes. *)
Definition is_prime (n : nat) : bool :=
  forallb (fun d => negb (Nat.eqb (n mod d) 0)) (seq 2 (n - 2)).

Definition primes : list Z :=
  map Z.of_nat (firstn 64 (filter is_prime (seq 2 310))).

Definition cube_root (n : Z) : Z :=
  fold_left (fun r b => let r' := r + 2 ^ Z.of_nat b in
                        if r' * r' * r' <=? n then r' else r)
            (rev (seq 0 40)) 0.

Definition K : list word :=
  map (fun p => w32 (cube_root (p * 2 ^ 96))) primes.

Definition H0 : list word :=
  map (fun p => w32 (Z.sqrt (p * 2 ^ 64))) (firstn 8 primes).

(** Message schedule, newest word first. *)
Fixpoint schedule (n : nat) (rw : list word) : list word :=
  match n with
  | O => rw
  | S n' =>
      let wt := add32 (add32 (ssig1 (nth 1 rw 0)) (nth 6 rw 0))
                      (add32 (ssig0 (nth 14 rw 0)) (nth 15 rw 0)) in
      schedule n' (wt :: rw)
  end.

Definition round (s : list word) (kw : word * word) : list word :=
  match s with
  | [a; b; c; d; e; f; g; h] =>
      let t1 := add32 (add32 (add32 h (bsig1 e)) (add32 (ch e f g) (fst kw)))
                      (snd kw) in
      let t2 := add32 (bsig0 a) (maj a b c) in
      [add32 t1 t2; a; b; c; add32 d t1; e; f; g]
  | _ => s
  end.

Definition compress (h : list word) (block : list word) : list word :=
  let w := rev (schedule 48 (rev block)) in
  map (fun p => add32 (fst p) (snd p))
      (combine h (fold_left round (combine K w) h)).

Fixpoint chunks {A : Type} (n k : nat) (l : list A) : list (list A) :=
  match n with
  | O => []
  | S n' => firstn k l :: chunks n' k (skipn k l)
  end.

Definition be_word (bs : list Z) : word :=
  fold_left (fun acc b => acc * 256 + b) bs 0.

Definition be_bytes (n : nat) (x : Z) : list Z :=
  map (fun i => (x / 256 ^ Z.of_nat i) mod 256) (rev (seq 0 n)).

Definition pad (msg : list Z) : list Z :=
  let len := Z.of_nat (List.length msg) in
  msg ++ [128] ++ repeat 0 (Z.to_nat ((55 - len) mod 64))
      ++ be_bytes 8 (len * 8).

Definition digest (msg : list Z) : list Z :=
  let bytes := pad msg in
  let words := map be_word (chunks (List.length bytes / 4) 4 bytes) in
  let blocks := chunks (List.length words / 16) 16 words in
  flat_map (be_bytes 4) (fold_left compress blocks H0).

Definition hmac_bytes (key msg : list Z) : list Z :=
  let k0 := if (64 <? List.length key)%nat then digest key else key in
  let k := k0 ++ repeat 0 (64 - List.length k0) in
  digest (map (Z.lxor 92) k ++ digest (map (Z.lxor 54) k ++ msg)).

Definition bytes_of_string (s : string) : list Z :=
  map (fun c => Z.of_N (N_of_ascii c)) (list_ascii_of_string s).

Definition hex_digit (n : Z) : ascii :=
  ascii_of_N (Z.to_N (if n <? 10 then 48 + n else 87 + n)).

Fixpoint hex (bs : list Z) : string :=
  match bs with
  | [] => EmptyString
  | b :: bs' => String (hex_digit (b / 16)) (String (hex_digit (b mod 16)) (hex bs'))
  end.

(** [sha256.hmac(key, message)]: the HMAC as a lower-case hex string. *)
Definition hmac (key msg : string) : string :=
  hex (hmac_bytes (bytes_of_string key) (bytes_of_string msg)).

Definition sha256 (msg : string) : string :=
  hex (digest (bytes_of_string msg)).

End Sha256.

(** ** HMAC *)

Definition HASH_VALUE_LEN : nat := 16.

Definition HMAC (key : string) : Number -> Number -> Number -> string :=
  fun timestamp lat lng =>
    let msg := (toString timestamp ++ toString lat ++ toString lng)%string in
    substr (Sha256.hmac key msg) 0 HASH_VALUE_LEN.

(** ** hashSpacetime *)

Section EmptySquare.

Variable A : Type.

(** The hash closure [hmac] of [hashSpacetime]; the loops only call it. *)
Variable hmac : Number -> Number -> Number -> A.

Variables t lat lng lat_step lng_step : Number.
Variable spread_out : Z.

(** Empty square: top and bottom lines. *)
Definition top_bottom (ret : list A) : list A :=
  for_up (- spread_out) spread_out
    (fun lng_i ret =>
       let ret := ret ++ [hmac t (lat - of_Z spread_out * lat_step)
                                 (lng + of_Z lng_i * lng_step)] in
       ret ++ [hmac t (lat + of_Z spread_out * lat_step)
                      (lng + of_Z lng_i * lng_step)])
    ret.

(** Empty square: left and right lines. *)
Definition left_right (ret : list A) : list A :=
  for_down (spread_out - 1) (- spread_out + 1)
    (fun lat_i ret =>
       let ret := ret ++ [hmac t (lat + of_Z lat_i * lat_step)
                                 (lng - of_Z spread_out * lng_step)] in
       ret ++ [hmac t (lat + of_Z lat_i * lat_step)
                      (lng + of_Z spread_out * lng_step)])
    ret.

(** The body of the loop over the timestamps. *)
Definition empty_square (ret : list A) : list A :=
  left_right (top_bottom ret).

End EmptySquare.

Arguments top_bottom {A} hmac t lat lng lat_step lng_step spread_out ret.
Arguments left_right {A} hmac t lat lng lat_step lng_step spread_out ret.
Arguments empty_square {A} hmac t lat lng lat_step lng_step spread_out ret.

Definition hashSpacetime (fuel : nat) (key : string)
    (begin_ end_ lat lng time_step_in_mins : Number)
    (latlng_precision spread_out : Z) : outcome (list string) :=
  let hmac := HMAC key in
  let '(lat, lng, lat_step, lng_step) :=
    quantifyLatLng lat lng latlng_precision in
  ts <- quantifyDuration fuel begin_ end_ time_step_in_mins ;;
  Done (fold_left
          (fun ret t => empty_square hmac t lat lng lat_step lng_step spread_out ret)
          ts []).

(** The points handed to the hash, in order: the loops run with a closure
    that records its coordinates. *)
Definition perimeter_points (lat lng lat_step lng_step : Number) (spread_out : Z)
    : list (Number * Number) :=
  empty_square (fun _ la ln => (la, ln)) 0 lat lng lat_step lng_step spread_out [].

(** ** The specification's wording *)

Module Spec.

(** The integers [lo, lo+1, ..., hi]. *)
Definition range (lo hi : Z) : list Z :=
  map (fun i => (lo + Z.of_nat i)%Z) (seq 0 (Z.to_nat (hi + 1 - lo))).

(** Section 4.1: the multiples of [step] from [floor(begin/step)*step] up
    to [ceil(end/step)*step]. *)
Definition QuantizedTime (begin_ end_ time_step_minutes : Number) : list Number :=
  let step := time_step_minutes * num 60 in
  map (fun k => of_Z k * step)
      (range (floor (begin_ / step)) (ceil (end_ / step))).

(** Section 4.3: top and bottom rows interleaved for [lng_i] from
    [-spread_out] to [+spread_out], then left and right columns for
    [lat_i] from [spread_out - 1] down to [-(spread_out - 1)]. *)
Definition Perimeter (q_lat q_lng lat_step lng_step : Number) (spread_out : Z)
    : list (Number * Number) :=
  flat_map (fun lng_i =>
              [(q_lat - of_Z spread_out * lat_step, q_lng + of_Z lng_i * lng_step);
               (q_lat + of_Z spread_out * lat_step, q_lng + of_Z lng_i * lng_step)])
           (range (- spread_out) spread_out)
  ++
  flat_map (fun lat_i =>
              [(q_lat + of_Z lat_i * lat_step, q_lng - of_Z spread_out * lng_step);
               (q_lat + of_Z lat_i * lat_step, q_lng + of_Z spread_out * lng_step)])
           (rev (range (- (spread_out - 1)) (spread_out - 1))).

(** Section 4.5: timestamp-major, then perimeter order. *)
Definition SpacetimeHash (key : string)
    (begin_ end_ lat lng time_step_minutes : Number)
    (latlng_precision spread_out : Z) : list string :=
  let '(q_lat, q_lng, lat_step, lng_step) :=
    quantifyLatLng lat lng latlng_precision in
  flat_map (fun t =>
              map (fun p => HMAC key t (fst p) (snd p))
                  (Perimeter q_lat q_lng lat_step lng_step spread_out))
           (QuantizedTime begin_ end_ time_step_minutes).




(** A lower-case hexadecimal digit. *)
Definition is_hex_char (c : ascii) : bool :=
  let n := N_of_ascii c in
  ((48 <=? n) && (n <=? 57) || (97 <=? n) && (n <=? 102))%N.

Fixpoint string_forall (p : ascii -> bool) (s : string) : bool :=
  match s with
  | EmptyString => true
  | String c s' => p c && string_forall p s'
  end.

End Spec.

Import Spec.

(** * Properties *)

(** ** From canonical rationals to plain rationals *)

Section ToQ.
Local Open Scope Q_scope.
Lemma this_plus (x y : Qc) : this (x + y)%Qc == this x + this y.
Proof. apply Qred_correct. Qed.
Lemma this_mult (x y : Qc) : this (x * y)%Qc == this x * this y.
Proof. apply Qred_correct. Qed.
Lemma this_opp (x : Qc) : this (- x)%Qc == - this x.
Proof. apply Qred_correct. Qed.
Lemma this_minus (x y : Qc) : this (x - y)%Qc == this x - this y.
Proof. unfold Qcminus. rewrite this_plus, this_opp. reflexivity. Qed.
Lemma this_inv (x : Qc) : this (/ x)%Qc == / this x.
Proof. apply Qred_correct. Qed.
Lemma this_div (x y : Qc) : this (x / y)%Qc == this x / this y.
Proof. unfold Qcdiv. rewrite this_mult, this_inv. reflexivity. Qed.
Lemma this_of_Z (z : Z) : this (of_Z z) == inject_Z z.
Proof. apply Qred_correct. Qed.
Lemma this_num (q : Q) : this (num q) == q.
Proof. apply Qred_correct. Qed.
Lemma this_Q2Qc (q : Q) : this (Q2Qc q) == q.
Proof. apply Qred_correct. Qed.
End ToQ.

Ltac to_Q :=
  try apply Qc_is_canon;
  unfold Qcle, Qclt in *;
  repeat first
    [ rewrite this_plus | rewrite this_mult | rewrite this_minus
    | rewrite this_opp | rewrite this_div | rewrite this_inv
    | rewrite this_of_Z | rewrite this_num | rewrite this_Q2Qc ].


Lemma of_Z_step_succ (k : Z) (step : Qc) :
  of_Z k * step + step = of_Z (k + 1) * step.
Proof. to_Q. rewrite inject_Z_plus. ring. Qed.


Lemma of_Z_le (a b : Z) : of_Z a <= of_Z b <-> (a <= b)%Z.
Proof. to_Q. rewrite <- Zle_Qle. reflexivity. Qed.

Lemma mult_le_of_Z (a b : Z) (step : Qc) :
  0 < step -> (of_Z a * step <= of_Z b * step <-> (a <= b)%Z).
Proof.
  intros Hs. rewrite <- of_Z_le. split; intros H.
  - apply Qcmult_lt_0_le_reg_r with step; assumption.
  - apply Qcmult_le_compat_r; [assumption|]. apply Qclt_le_weak. assumption.
Qed.

Lemma leb_le (x y : Qc) : leb x y = true <-> x <= y.
Proof. unfold leb, Qcle. apply Qle_bool_iff. Qed.

(** ** The counting loops as folds over a range *)

Lemma range_nil lo hi : (hi < lo)%Z -> range lo hi = [].
Proof. intros H. unfold range. replace (Z.to_nat (hi + 1 - lo)) with 0%nat by lia. reflexivity. Qed.

Lemma range_cons lo hi : (lo <= hi)%Z -> range lo hi = lo :: range (lo + 1) hi.
Proof.
  intros H. unfold range.
  replace (Z.to_nat (hi + 1 - lo)) with (S (Z.to_nat (hi + 1 - (lo + 1)))) by lia.
  cbn [seq map]. f_equal; [lia|].
  rewrite <- seq_shift, map_map. apply map_ext. intros; lia.
Qed.

Lemma range_snoc lo hi : (lo <= hi)%Z -> range lo hi = range lo (hi - 1) ++ [hi].
Proof.
  intros H. unfold range.
  replace (Z.to_nat (hi + 1 - lo)) with (Z.to_nat (hi - 1 + 1 - lo) + 1)%nat by lia.
  rewrite seq_app, map_app. cbn. f_equal. f_equal. lia.
Qed.

Lemma for_up_range {S : Type} (body : Z -> S -> S) (hi : Z) :
  forall (n : nat) (i : Z) (s : S),
    n = Z.to_nat (hi + 1 - i) ->
    for_up i hi body s = fold_left (fun s i => body i s) (range i hi) s.
Proof.
  induction n as [|n IH]; intros i s Hn; simp for_up;
    destruct (Z_le_gt_dec i hi) as [Hle|Hgt]; cbn.
  - lia.
  - rewrite range_nil by lia. reflexivity.
  - rewrite range_cons by lia. cbn. apply IH. lia.
  - rewrite range_nil by lia. reflexivity.
Qed.

Lemma for_down_range {S : Type} (body : Z -> S -> S) (lo : Z) :
  forall (n : nat) (i : Z) (s : S),
    n = Z.to_nat (i + 1 - lo) ->
    for_down i lo body s = fold_left (fun s i => body i s) (rev (range lo i)) s.
Proof.
  induction n as [|n IH]; intros i s Hn; simp for_down;
    destruct (Z_le_gt_dec lo i) as [Hle|Hgt]; cbn.
  - lia.
  - rewrite range_nil by lia. reflexivity.
  - rewrite range_snoc by lia. rewrite rev_app_distr. cbn. apply IH. lia.
  - rewrite range_nil by lia. reflexivity.
Qed.

Lemma fold_push2 {A I : Type} (f g : I -> A) (l : list I) :
  forall ret : list A,
    fold_left (fun ret i => (ret ++ [f i]) ++ [g i]) l ret
    = ret ++ flat_map (fun i => [f i; g i]) l.
Proof.
  induction l as [|i l IH]; intros ret; cbn.
  - now rewrite app_nil_r.
  - rewrite IH. rewrite <- !app_assoc. reflexivity.
Qed.

(** ** quantifyDuration: the loop *)

Lemma loop_exit fuel t end_ step ret :
  ~ t <= end_ -> quantifyDuration_loop fuel t end_ step ret = Done ret.
Proof.
  intros H. destruct fuel; cbn; destruct (leb t end_) eqn:E; try reflexivity;
    apply leb_le in E; contradiction.
Qed.

Lemma loop_returns (step : Number) (c : Z) :
  0 < step ->
  forall (n : nat) (k : Z) (ret : list Number) (fuel : nat),
    n = Z.to_nat (c + 1 - k) -> (n <= fuel)%nat ->
    quantifyDuration_loop fuel (of_Z k * step) (of_Z c * step) step ret
    = Done (ret ++ map (fun j => of_Z j * step) (range k c)).
Proof.
  intros Hs. induction n as [|n IH]; intros k ret fuel Hn Hf.
  - rewrite loop_exit.
    + rewrite range_nil by lia. cbn. now rewrite app_nil_r.
    + rewrite mult_le_of_Z by assumption. lia.
  - destruct fuel as [|fuel]; [lia|]. cbn.
    replace (leb (of_Z k * step) (of_Z c * step)) with true
      by (symmetry; apply leb_le, mult_le_of_Z; [assumption | lia]).
    rewrite of_Z_step_succ, IH by lia.
    rewrite (range_cons k c) by lia. cbn. now rewrite <- app_assoc.
Qed.

Lemma loop_runs_forever (step end_ : Number) :
  step <= 0 -> forall (fuel : nat) (t : Number) (ret : list Number),
    t <= end_ -> quantifyDuration_loop fuel t end_ step ret = OutOfFuel.
Proof.
  intros Hs. induction fuel as [|fuel IH]; intros t' ret Ht; cbn;
    replace (leb t' end_) with true by (symmetry; now apply leb_le).
  - reflexivity.
  - apply IH. apply Qcle_trans with t'; [|assumption].
    revert Hs. to_Q. intros. lra.
Qed.

Lemma loop_never_throws fuel t end_ step ret err :
  quantifyDuration_loop fuel t end_ step ret <> Throws err.
Proof.
  revert t ret. induction fuel as [|fuel IH]; intros t ret; cbn;
    destruct (leb t end_); try discriminate. apply IH.
Qed.

Lemma Qc_eq_bool_false (x y : Qc) : x <> y -> Qc_eq_bool x y = false.
Proof. intros H. unfold Qc_eq_bool. destruct (Qc_eq_dec x y); [contradiction|reflexivity]. Qed.

Lemma Qc_eq_bool_true (x : Qc) : Qc_eq_bool x x = true.
Proof. unfold Qc_eq_bool. destruct (Qc_eq_dec x x); [reflexivity|contradiction]. Qed.

Lemma step_pos (m : Number) : 0 < m -> 0 < m * num 60.
Proof.
  to_Q. intros H. change (this 0) with 0%Q in *. 
  apply Qmult_lt_0_compat; [assumption | reflexivity].
Qed.

Lemma quantifyDuration_returns (b e m : Number) :
  0 < m ->
  let step := m * num 60 in
  forall fuel : nat,
    (Z.to_nat (ceil (e / step) + 1 - floor (b / step)) <= fuel)%nat ->
    quantifyDuration fuel b e m = Done (QuantizedTime b e m).
Proof.
  intros Hm step fuel Hf. unfold quantifyDuration, QuantizedTime. fold step.
  assert (Hs : 0 < step) by (apply step_pos; assumption).
  rewrite Qc_eq_bool_false by (apply not_eq_sym, Qclt_not_eq; assumption).
  unfold Math_floor, Math_ceil.
  exact (loop_returns step _ Hs _ _ [] fuel eq_refl Hf).
Qed.






Lemma length_range lo hi : List.length (range lo hi) = Z.to_nat (hi + 1 - lo).
Proof. unfold range. now rewrite length_map, length_seq. Qed.






(** ** The empty square *)

Lemma map_flat_map_pair {I A B : Type} (h : A -> B) (f g : I -> A) (l : list I) :
  flat_map (fun i => [h (f i); h (g i)]) l = map h (flat_map (fun i => [f i; g i]) l).
Proof. induction l as [|i l IH]; cbn; [reflexivity | now rewrite IH]. Qed.

Lemma length_flat_map_pair {I A : Type} (f g : I -> A) (l : list I) :
  List.length (flat_map (fun i => [f i; g i]) l) = (2 * List.length l)%nat.
Proof. induction l as [|i l IH]; cbn; [reflexivity | rewrite IH; lia]. Qed.

Lemma in_flat_map_pair {I A : Type} (f g : I -> A) (l : list I) (x : A) :
  In x (flat_map (fun i => [f i; g i]) l) <-> exists i, In i l /\ (x = f i \/ x = g i).
Proof.
  rewrite in_flat_map. split; intros [i [Hi Hx]]; exists i; split; try assumption.
  - cbn in Hx. destruct Hx as [<-|[<-|[]]]; auto.
  - cbn. destruct Hx as [->| ->]; auto.
Qed.

Lemma empty_square_appends {A : Type} (hmac : Number -> Number -> Number -> A)
    (t lat lng lat_step lng_step : Number) (spread_out : Z) (ret : list A) :
  empty_square hmac t lat lng lat_step lng_step spread_out ret
  = ret ++ map (fun p => hmac t (fst p) (snd p))
               (Perimeter lat lng lat_step lng_step spread_out).
Proof.
  unfold empty_square, left_right, top_bottom, Perimeter.
  rewrite (for_up_range _ _ _ _ _ eq_refl), (for_down_range _ _ _ _ _ eq_refl).
  cbv zeta. rewrite !fold_push2, <- app_assoc. f_equal.
  replace (- spread_out + 1)%Z with (- (spread_out - 1))%Z by lia.
  rewrite map_app, <- !map_flat_map_pair. reflexivity.
Qed.

Lemma perimeter_points_Perimeter lat lng lat_step lng_step spread_out :
  perimeter_points lat lng lat_step lng_step spread_out
  = Perimeter lat lng lat_step lng_step spread_out.
Proof.
  unfold perimeter_points. rewrite empty_square_appends. cbn [app].
  rewrite <- (map_id (Perimeter _ _ _ _ _)) at 2.
  apply map_ext. intros [la ln]. reflexivity.
Qed.

Lemma length_Perimeter lat lng lat_step lng_step spread_out :
  List.length (Perimeter lat lng lat_step lng_step spread_out)
  = (2 * Z.to_nat (2 * spread_out + 1) + 2 * Z.to_nat (2 * spread_out - 1))%nat.
Proof.
  unfold Perimeter.
  rewrite length_app, !length_flat_map_pair, length_rev, !length_range.
  f_equal; f_equal; f_equal; lia.
Qed.

Lemma fold_append {A T : Type} (f : T -> list A) (ts : list T) :
  forall ret : list A,
    fold_left (fun ret t => ret ++ f t) ts ret = ret ++ flat_map f ts.
Proof.
  induction ts as [|t ts IH]; intros ret; cbn.
  - now rewrite app_nil_r.
  - now rewrite IH, <- app_assoc.
Qed.

Lemma length_flat_map_const {A T : Type} (f : T -> list A) (n : nat) (ts : list T) :
  (forall t, List.length (f t) = n) ->
  List.length (flat_map f ts) = (List.length ts * n)%nat.
Proof.
  intros H. induction ts as [|t ts IH]; cbn; [reflexivity|].
  now rewrite length_app, H, IH.
Qed.

Lemma hashSpacetime_body key lat lng lat_step lng_step spread_out (ts : list Number) :
  fold_left
    (fun ret t => empty_square (HMAC key) t lat lng lat_step lng_step spread_out ret)
    ts []
  = flat_map (fun t => map (fun p => HMAC key t (fst p) (snd p))
                           (Perimeter lat lng lat_step lng_step spread_out)) ts.
Proof.
  rewrite <- (app_nil_l (flat_map _ ts)), <- fold_append.
  generalize (@nil string). induction ts as [|t ts IH]; intros ret; cbn [fold_left].
  - reflexivity.
  - rewrite empty_square_appends. apply IH.
Qed.

(** ** quantifyLatLng: truncation *)

Lemma pow10_pos (p : Z) : 0 < pow (num 10) p.
Proof.
  unfold pow. to_Q. change (this 0) with 0%Q.
  apply Qpower_0_lt. reflexivity.
Qed.

Lemma pow10_nonzero (p : Z) : pow (num 10) p <> 0.
Proof. apply not_eq_sym, Qclt_not_eq, pow10_pos. Qed.

Lemma floor_of_Z (k : Z) : floor (of_Z k) = k.
Proof. unfold floor. rewrite this_of_Z. apply Qfloor_Z. Qed.

Lemma ceil_of_Z (k : Z) : ceil (of_Z k) = k.
Proof. unfold ceil. rewrite this_of_Z. apply Qceiling_Z. Qed.

Lemma trunc_of_Z (k : Z) : trunc (of_Z k) = k.
Proof. unfold trunc. destruct (leb 0 (of_Z k)); [apply floor_of_Z | apply ceil_of_Z]. Qed.

Lemma mult_div_cancel (x s : Number) : s <> 0 -> x * s / s = x.
Proof. intros H. field. assumption. Qed.







Lemma shuffleFloat_idempotent (x : Number) (p : Z) (mask : ascii) :
  shuffleFloat (shuffleFloat x (p - 1) (p - 1) mask) (p - 1) (p - 1) mask
  = shuffleFloat x (p - 1) (p - 1) mask.
Proof.
  unfold shuffleFloat. cbv zeta.
  rewrite mult_div_cancel by apply pow10_nonzero.
  now rewrite trunc_of_Z.
Qed.

(** ** Distinct grid points *)

Lemma of_Z_inj (a b : Z) : of_Z a = of_Z b -> a = b.
Proof.
  intros H. apply inject_Z_injective.
  rewrite <- (this_of_Z a), <- (this_of_Z b), H. reflexivity.
Qed.

Lemma grid_inj (x st : Qc) (a b : Z) :
  st <> 0 -> x + of_Z a * st = x + of_Z b * st -> a = b.
Proof.
  intros Hst H. apply of_Z_inj.
  assert (E : (of_Z a - of_Z b) * st = 0).
  { replace ((of_Z a - of_Z b) * st)
      with ((x + of_Z a * st) - (x + of_Z b * st)) by ring.
    rewrite H. ring. }
  apply Qcmult_integral in E. destruct E as [E|E]; [|contradiction].
  replace (of_Z a) with ((of_Z a - of_Z b) + of_Z b) by ring.
  rewrite E. ring.
Qed.

Lemma sub_of_Z (x st : Qc) (s : Z) : x - of_Z s * st = x + of_Z (- s) * st.
Proof. to_Q. rewrite inject_Z_opp. ring. Qed.

Lemma in_range lo hi k : In k (range lo hi) <-> (lo <= k <= hi)%Z.
Proof.
  unfold range. rewrite in_map_iff. split.
  - intros [i [<- Hi]]. apply in_seq in Hi. lia.
  - intros H. exists (Z.to_nat (k - lo)). split; [lia|]. apply in_seq. lia.
Qed.

Lemma NoDup_range lo hi : NoDup (range lo hi).
Proof.
  unfold range. apply NoDup_map_NoDup_ForallPairs; [|apply seq_NoDup].
  intros i j _ _ H. lia.
Qed.

Lemma NoDup_flat_map_pair {I A : Type} (f g : I -> A) (l : list I) :
  NoDup l ->
  (forall i j, In i l -> In j l -> f i = f j -> i = j) ->
  (forall i j, In i l -> In j l -> g i = g j -> i = j) ->
  (forall i j, In i l -> In j l -> f i <> g j) ->
  NoDup (flat_map (fun i => [f i; g i]) l).
Proof.
  induction 1 as [|a l Ha Hl IH]; intros Hf Hg Hfg; cbn; [constructor|].
  assert (IHl : NoDup (flat_map (fun i => [f i; g i]) l)).
  { apply IH; intros i j Hi Hj; [apply Hf | apply Hg | apply Hfg]; now right. }
  constructor; [|constructor; [|exact IHl]].
  - intros [E|Hin].
    + apply (Hfg a a); [now left | now left | now symmetry].
    + apply in_flat_map_pair in Hin. destruct Hin as [i [Hi [E|E]]].
      * apply Ha. rewrite (Hf a i); [assumption | now left | now right | assumption].
      * apply (Hfg a i); [now left | now right | assumption].
  - intros Hin. apply in_flat_map_pair in Hin. destruct Hin as [i [Hi [E|E]]].
    + apply (Hfg i a); [now right | now left | now symmetry].
    + apply Ha. rewrite (Hg a i); [assumption | now left | now right | assumption].
Qed.

Lemma NoDup_Perimeter (lat lng lat_step lng_step : Number) (spread_out : Z) :
  (1 <= spread_out)%Z -> lat_step <> 0 -> lng_step <> 0 ->
  NoDup (Perimeter lat lng lat_step lng_step spread_out).
Proof.
  intros Hs Hlat Hlng. unfold Perimeter. apply NoDup_app.
  - apply NoDup_flat_map_pair; [apply NoDup_range | | | ]; intros i j _ _ E.
    + apply (f_equal snd) in E. exact (grid_inj _ _ _ _ Hlng E).
    + apply (f_equal snd) in E. exact (grid_inj _ _ _ _ Hlng E).
    + apply (f_equal fst) in E. cbn in E. rewrite sub_of_Z in E.
      apply grid_inj in E; [lia | assumption].
  - apply NoDup_flat_map_pair; [apply NoDup_rev, NoDup_range | | | ]; intros i j _ _ E.
    + apply (f_equal fst) in E. exact (grid_inj _ _ _ _ Hlat E).
    + apply (f_equal fst) in E. exact (grid_inj _ _ _ _ Hlat E).
    + apply (f_equal snd) in E. cbn in E. rewrite sub_of_Z in E.
      apply grid_inj in E; [lia | assumption].
  - intros [la ln] H1 H2.
    apply in_flat_map_pair in H1. destruct H1 as [i [_ H1]].
    apply in_flat_map_pair in H2. destruct H2 as [j [Hj H2]].
    apply in_rev, in_range in Hj.
    destruct H1 as [H1|H1], H2 as [H2|H2];
      apply (f_equal fst) in H1; apply (f_equal fst) in H2; cbn in H1, H2;
      rewrite H2 in H1; rewrite ?sub_of_Z in H1;
      apply grid_inj in H1; try assumption; lia.
Qed.

(** ** Token length *)

Lemma length_round s kw : List.length (Sha256.round s kw) = List.length s.
Proof.
  unfold Sha256.round.
  do 9 (destruct s as [|? s]; try reflexivity).
Qed.

Lemma length_rounds l s : List.length (fold_left Sha256.round l s) = List.length s.
Proof.
  revert s. induction l as [|kw l IH]; intros s; cbn; [reflexivity|].
  now rewrite IH, length_round.
Qed.

Lemma length_compress h block : List.length (Sha256.compress h block) = List.length h.
Proof.
  unfold Sha256.compress.
  rewrite length_map, length_combine, length_rounds. apply Nat.min_id.
Qed.

Lemma length_H0 : List.length Sha256.H0 = 8%nat.
Proof. vm_compute. reflexivity. Qed.

Lemma length_digest msg : List.length (Sha256.digest msg) = 32%nat.
Proof.
  unfold Sha256.digest.
  rewrite (length_flat_map_const (Sha256.be_bytes 4) 4) by reflexivity.
  set (blocks := Sha256.chunks _ _ _).
  assert (H : forall bs h, List.length (fold_left Sha256.compress bs h) = List.length h).
  { induction bs as [|b bs IH]; intros h; cbn; [reflexivity|].
    now rewrite IH, length_compress. }
  now rewrite H, length_H0.
Qed.

Lemma length_hex bs : String.length (Sha256.hex bs) = (2 * List.length bs)%nat.
Proof. induction bs as [|b bs IH]; cbn; [reflexivity | rewrite IH; lia]. Qed.

Lemma length_hmac key msg : String.length (Sha256.hmac key msg) = 64%nat.
Proof.
  unfold Sha256.hmac, Sha256.hmac_bytes. now rewrite length_hex, length_digest.
Qed.

Lemma length_substring_0 (n : nat) :
  forall s : string, (n <= String.length s)%nat -> String.length (substring 0 n s) = n.
Proof.
  induction n as [|n IH]; intros s H.
  - destruct s; reflexivity.
  - destruct s as [|c s]; cbn in *; [lia|]. rewrite IH; [reflexivity | lia].
Qed.

Lemma length_HMAC key t lat lng : String.length (HMAC key t lat lng) = HASH_VALUE_LEN.
Proof.
  unfold HMAC, substr. apply length_substring_0. rewrite length_hmac.
  unfold HASH_VALUE_LEN. lia.
Qed.

(** ** hashSpacetime: composition *)

Lemma quantifyDuration_never_throws fuel b e m err :
  quantifyDuration fuel b e m <> Throws err.
Proof.
  unfold quantifyDuration. destruct (Qc_eq_bool (m * num 60) 0); [discriminate|].
  apply loop_never_throws.
Qed.



(** The tokens for the timestamps [ts]. *)
Lemma hashSpacetime_unfold fuel key b e lat lng m p s :
  hashSpacetime fuel key b e lat lng m p s
  = (ts <- quantifyDuration fuel b e m ;;
     Done (flat_map
             (fun t => map (fun q => HMAC key t (fst q) (snd q))
                           (Perimeter
                              (shuffleFloat lat (p - 1) (p - 1) "0")
                              (shuffleFloat lng (p - 1) (p - 1) "0")
                              (pow (num 10) p) (pow (num 10) p) s))
             ts)).
Proof.
  unfold hashSpacetime, quantifyLatLng. cbv zeta.
  destruct (quantifyDuration fuel b e m) as [ts| |]; cbn [bind]; try reflexivity.
  now rewrite hashSpacetime_body.
Qed.


Lemma hashSpacetime_never_throws fuel key b e lat lng m p s err :
  hashSpacetime fuel key b e lat lng m p s <> Throws err.
Proof.
  rewrite hashSpacetime_unfold.
  destruct (quantifyDuration fuel b e m) as [ts|e'|] eqn:E; cbn [bind]; try discriminate.
  exfalso. exact (quantifyDuration_never_throws _ _ _ _ _ E).
Qed.

Lemma Perimeter_negative lat lng lat_step lng_step s :
  (s < 0)%Z -> Perimeter lat lng lat_step lng_step s = [].
Proof.
  intros H. unfold Perimeter. rewrite !range_nil by lia. reflexivity.
Qed.


(** * The claims *)

(** Closed comparisons between numerals. *)
Ltac numeral :=
  first [ reflexivity
        | vm_compute; reflexivity
        | vm_compute; discriminate
        | let H := fresh in
          intros H; apply (f_equal this) in H; vm_compute in H; discriminate H ].






(** C3: for spread_out >= 1 the two perimeter loops emit exactly
    8 * spread_out points (and as many tokens, whatever the hash closure) per
    timestamp; for spread_out = 0 they emit exactly two points, both equal to
    the centre. *)
Theorem perimeter_point_count (lat lng lat_step lng_step : Number) (spread_out : Z) :
  (1 <= spread_out ->
   List.length (perimeter_points lat lng lat_step lng_step spread_out)
   = Z.to_nat (8 * spread_out)
   /\ forall (A : Type) (hmac : Number -> Number -> Number -> A)
             (t : Number) (ret : list A),
        List.length (empty_square hmac t lat lng lat_step lng_step spread_out ret)
        = (List.length ret + Z.to_nat (8 * spread_out))%nat)%Z
  /\ perimeter_points lat lng lat_step lng_step 0 = [(lat, lng); (lat, lng)].
Proof.
  split.
  - intros Hs. split.
    + rewrite perimeter_points_Perimeter, length_Perimeter. lia.
    + intros A hmac t ret.
      rewrite empty_square_appends, length_app, length_map, length_Perimeter. lia.
  - rewrite perimeter_points_Perimeter. unfold Perimeter.
    change (range (- 0) 0) with [0%Z].
    change (range (- (0 - 1)) (0 - 1)) with (@nil Z).
    cbn [flat_map rev app]. change (of_Z 0) with 0.
    replace (lat - 0 * lat_step) with lat by ring.
    replace (lat + 0 * lat_step) with lat by ring.
    replace (lng + 0 * lng_step) with lng by ring.
    reflexivity.
Qed.

Lemma perimeter_point_count_witness :
  List.length (perimeter_points (num 25.123) (num 122.123) (num 0.001) (num 0.001) 2)
  = Z.to_nat (8 * 2)
  /\ forall (A : Type) (hmac : Number -> Number -> Number -> A)
            (t : Number) (ret : list A),
       List.length (empty_square hmac t (num 25.123) (num 122.123)
                                 (num 0.001) (num 0.001) 2 ret)
       = (List.length ret + Z.to_nat (8 * 2))%nat.
Proof.
  apply (proj1 (perimeter_point_count (num 25.123) (num 122.123)
                  (num 0.001) (num 0.001) 2)); lia.
Defined.



(** C8: quantifyLatLng is idempotent: quantifying the quantized coordinates
    again at the same precision returns the same quantized coordinates (and
    the same steps). *)
Theorem quantifyLatLng_idempotent (lat lng : Number) (latlng_precision : Z) :
  let '(q_lat, q_lng, _, _) := quantifyLatLng lat lng latlng_precision in
  quantifyLatLng q_lat q_lng latlng_precision
  = quantifyLatLng lat lng latlng_precision.
Proof.
  unfold quantifyLatLng. cbv zeta. now rewrite !shuffleFloat_idempotent.
Qed.

(** C10: for spread_out >= 1 and nonzero steps, the 8 * spread_out
    coordinate pairs emitted for one timestamp are pairwise distinct. *)
Theorem perimeter_points_distinct (lat lng lat_step lng_step : Number)
    (spread_out : Z) :
  (1 <= spread_out)%Z -> lat_step <> 0 -> lng_step <> 0 ->
  NoDup (perimeter_points lat lng lat_step lng_step spread_out).
Proof.
  intros Hs Hlat Hlng. rewrite perimeter_points_Perimeter.
  now apply NoDup_Perimeter.
Qed.

Lemma perimeter_points_distinct_witness :
  NoDup (perimeter_points (num 25.123) (num 122.123) (num 0.001) (num 0.001) 1).
Proof.
  apply (perimeter_points_distinct (num 25.123) (num 122.123)
           (num 0.001) (num 0.001) 1); [lia | numeral | numeral].
Defined.

(** C6, as the code behaves: quantifyDuration does not validate its step and
    never throws.  With a zero step it returns the empty sequence; with a
    negative step it returns the empty sequence when the first aligned instant
    is after the last one, and otherwise its loop never ends.  hashSpacetime
    follows: it never throws, returns the empty sequence where quantifyDuration
    does and does not end where quantifyDuration does not. *)
Theorem quantifyDuration_nonpositive_step
    (begin_ end_ time_step_minutes : Number) (fuel : nat) :
  time_step_minutes <= 0 ->
  let step := time_step_minutes * num 60 in
  let first := Math_floor (begin_ / step) * step in
  let last_ := Math_ceil (end_ / step) * step in
  (forall err, quantifyDuration fuel begin_ end_ time_step_minutes <> Throws err)
  /\ (time_step_minutes = 0 ->
      quantifyDuration fuel begin_ end_ time_step_minutes = Done [])
  /\ (time_step_minutes < 0 -> ~ first <= last_ ->
      quantifyDuration fuel begin_ end_ time_step_minutes = Done [])
  /\ (time_step_minutes < 0 -> first <= last_ ->
      quantifyDuration fuel begin_ end_ time_step_minutes = OutOfFuel)
  /\ (forall key lat lng p s,
        (forall err,
           hashSpacetime fuel key begin_ end_ lat lng time_step_minutes p s
           <> Throws err)
        /\ (quantifyDuration fuel begin_ end_ time_step_minutes = Done [] ->
            hashSpacetime fuel key begin_ end_ lat lng time_step_minutes p s
            = Done [])
        /\ (quantifyDuration fuel begin_ end_ time_step_minutes = OutOfFuel ->
            hashSpacetime fuel key begin_ end_ lat lng time_step_minutes p s
            = OutOfFuel)).
Proof.
  intros Hm step first last_.
  assert (Hneg : time_step_minutes < 0 -> step < 0 /\ step <> 0).
  { intros H. assert (Hlt : step < 0).
    { unfold step. revert H. to_Q. change (this 0) with 0%Q. intros H.
      setoid_replace 0%Q with (0 * 60)%Q by ring.
      apply Qmult_lt_compat_r; [reflexivity | assumption]. }
    split; [assumption | now apply Qclt_not_eq]. }
  split; [intros err; apply quantifyDuration_never_throws|].
  split; [|split; [|split]].
  - intros ->. unfold quantifyDuration.
    replace (0 * num 60) with 0 by ring. now rewrite Qc_eq_bool_true.
  - intros Hlt Hfl. destruct (Hneg Hlt) as [_ Hs0].
    unfold quantifyDuration. fold step. rewrite Qc_eq_bool_false by assumption.
    now apply loop_exit.
  - intros Hlt Hfl. destruct (Hneg Hlt) as [Hs Hs0].
    unfold quantifyDuration. fold step. rewrite Qc_eq_bool_false by assumption.
    apply loop_runs_forever; [now apply Qclt_le_weak | assumption].
  - intros key lat lng p s. split; [|split].
    + intros err. apply hashSpacetime_never_throws.
    + intros H. rewrite hashSpacetime_unfold, H. reflexivity.
    + intros H. rewrite hashSpacetime_unfold, H. reflexivity.
Qed.

Lemma quantifyDuration_nonpositive_step_witness :
  quantifyDuration 16 (num 123) (num 601) (num (-10)) = OutOfFuel.
Proof.
  apply (quantifyDuration_nonpositive_step (num 123) (num 601) (num (-10)) 16);
    numeral.
Defined.

(** C6 as stated fails: with a step of -10 minutes quantifyDuration(100, 200)
    evaluates begin = 600 and end = 0, skips the loop and returns the empty
    array; nothing is thrown. *)
Lemma quantifyDuration_negative_step_returns :
  quantifyDuration 16 (num 100) (num 200) (num (-10)) = Done []
  /\ quantifyDuration 16 (num 100) (num 200) (num (-10)) <> Throws InvalidArgument
  /\ hashSpacetime 16 "abc" (num 100) (num 200) (num 25.123456) (num 122.123)
                   (num (-10)) (-3) 1 = Done [].
Proof.
  split; [vm_compute; reflexivity|]. split; [vm_compute; discriminate|].
  vm_compute. reflexivity.
Qed.




(** C9: for spread_out < 0 (begin <= end, positive time step) hashSpacetime
    returns the empty sequence: both perimeter loops have empty ranges for
    every timestamp, and nothing is thrown. *)
Theorem hashSpacetime_negative_spread (key : string)
    (begin_ end_ lat lng time_step_minutes : Number)
    (latlng_precision spread_out : Z) :
  (spread_out < 0)%Z -> begin_ <= end_ -> 0 < time_step_minutes ->
  (exists fuel0 : nat, forall fuel : nat, (fuel0 <= fuel)%nat ->
     hashSpacetime fuel key begin_ end_ lat lng time_step_minutes
                   latlng_precision spread_out = Done [])
  /\ (forall (fuel : nat) (err : error),
        hashSpacetime fuel key begin_ end_ lat lng time_step_minutes
                      latlng_precision spread_out <> Throws err)
  /\ (forall (A : Type) (hmac : Number -> Number -> Number -> A)
             (t la ln lat_step lng_step : Number) (ret : list A),
        empty_square hmac t la ln lat_step lng_step spread_out ret = ret).
Proof.
  intros Hs _ Hm. split; [|split].
  - eexists. intros fuel Hf. rewrite hashSpacetime_unfold.
    rewrite (quantifyDuration_returns begin_ end_ time_step_minutes Hm fuel Hf).
    cbn [bind]. rewrite Perimeter_negative by assumption. f_equal.
    induction (QuantizedTime begin_ end_ time_step_minutes) as [|t ts IH];
      [reflexivity | exact IH].
  - intros fuel err. apply hashSpacetime_never_throws.
  - intros A hmac t la ln lat_step lng_step ret.
    rewrite empty_square_appends, Perimeter_negative by assumption.
    apply app_nil_r.
Qed.

Lemma hashSpacetime_negative_spread_witness :
  exists fuel0 : nat, forall fuel : nat, (fuel0 <= fuel)%nat ->
    hashSpacetime fuel "abc" (num 100) (num 700) (num 25.123456) (num 122.123)
                  (num 10) (-3) (-2) = Done [].
Proof.
  apply (hashSpacetime_negative_spread "abc" (num 100) (num 700) (num 25.123456)
           (num 122.123) (num 10) (-3) (-2)); [lia | numeral | numeral].
Defined.

(** * Further properties of the code *)

(** ** quantifyDuration *)























(** ** The empty square *)












(** ** hashSpacetime as a whole *)



Lemma hex_digit_is_hex (n : Z) :
  (0 <= n < 16)%Z -> is_hex_char (Sha256.hex_digit n) = true.
Proof.
  intros H.
  assert (All : forallb (fun i => is_hex_char (Sha256.hex_digit (Z.of_nat i)))
                        (seq 0 16) = true) by reflexivity.
  rewrite forallb_forall in All. specialize (All (Z.to_nat n)).
  rewrite Z2Nat.id in All by lia. apply All. apply in_seq. lia.
Qed.

Lemma hex_is_hex (bs : list Z) :
  Forall (fun b => 0 <= b < 256)%Z bs ->
  string_forall is_hex_char (Sha256.hex bs) = true.
Proof.
  induction 1 as [|b bs Hb _ IH]; [reflexivity|].
  cbn [Sha256.hex string_forall].
  rewrite !hex_digit_is_hex, IH; [reflexivity | |].
  - apply Z.mod_pos_bound. lia.
  - split; [apply Z.div_pos; lia | apply Z.div_lt_upper_bound; lia].
Qed.

Lemma be_bytes_range (n : nat) (x : Z) :
  Forall (fun b => 0 <= b < 256)%Z (Sha256.be_bytes n x).
Proof.
  unfold Sha256.be_bytes. apply Forall_forall. intros b Hb.
  apply in_map_iff in Hb. destruct Hb as [i [<- _]].
  apply Z.mod_pos_bound. lia.
Qed.

Lemma digest_range (msg : list Z) :
  Forall (fun b => 0 <= b < 256)%Z (Sha256.digest msg).
Proof.
  unfold Sha256.digest. apply Forall_forall. intros b Hb.
  apply in_flat_map in Hb. destruct Hb as [w [_ Hb]].
  exact (proj1 (Forall_forall _ _) (be_bytes_range 4 w) b Hb).
Qed.

Lemma substring_forall (p : ascii -> bool) (n : nat) :
  forall s : string,
    string_forall p s = true -> string_forall p (substring 0 n s) = true.
Proof.
  induction n as [|n IH]; intros s H.
  - destruct s; reflexivity.
  - destruct s as [|c s]; [reflexivity|]. cbn in *.
    apply andb_true_iff in H. destruct H as [Hc Hs].
    now rewrite Hc, IH.
Qed.

Lemma HMAC_is_hex (key : string) (t lat lng : Number) :
  string_forall is_hex_char (HMAC key t lat lng) = true.
Proof.
  unfold HMAC, substr. apply substring_forall.
  unfold Sha256.hmac, Sha256.hmac_bytes. apply hex_is_hex, digest_range.
Qed.

(** X12: every token hashSpacetime returns is a string of exactly 16
    lower-case hexadecimal characters. *)
Theorem hashSpacetime_tokens_are_16_hex_chars (fuel : nat) (key : string)
    (begin_ end_ lat lng time_step_in_mins : Number)
    (latlng_precision spread_out : Z) (tokens : list string) :
  hashSpacetime fuel key begin_ end_ lat lng time_step_in_mins
                latlng_precision spread_out = Done tokens ->
  Forall (fun token => String.length token = HASH_VALUE_LEN
                       /\ string_forall is_hex_char token = true) tokens.
Proof.
  rewrite hashSpacetime_unfold.
  destruct (quantifyDuration fuel begin_ end_ time_step_in_mins) as [ts| |];
    cbn [bind]; try discriminate.
  intros H. injection H as <-. apply Forall_forall. intros token Hin.
  apply in_flat_map in Hin. destruct Hin as [t [_ Hin]].
  apply in_map_iff in Hin. destruct Hin as [q [<- _]].
  split; [apply length_HMAC | apply HMAC_is_hex].
Qed.

Lemma hashSpacetime_tokens_are_16_hex_chars_witness :
  Forall (fun token => String.length token = HASH_VALUE_LEN
                       /\ string_forall is_hex_char token = true)
         (SpacetimeHash "abc" (num 100) (num 700) (num 25.123456) (num 122.123)
                        (num 10) (-3) 1).
Proof.
  apply (hashSpacetime_tokens_are_16_hex_chars 16 "abc" (num 100) (num 700)
           (num 25.123456) (num 122.123) (num 10) (-3) 1).
  vm_compute. reflexivity.
Defined.



(** X14: the three fields are concatenated with no separator, so the hashed
    message does not determine them: distinct coordinate pairs, and distinct
    timestamp and latitude pairs, get the same token under every key. *)
Theorem HMAC_fields_are_not_delimited :
  (exists lat lng lat' lng' : Number,
     (lat, lng) <> (lat', lng')
     /\ forall (key : string) (t : Number),
          HMAC key t lat lng = HMAC key t lat' lng')
  /\ (exists t lat t' lat' : Number,
        (t, lat) <> (t', lat')
        /\ forall (key : string) (lng : Number),
             HMAC key t lat lng = HMAC key t' lat' lng).
Proof.
  split.
  - exists (num 25.123), (num 122.123), (num 25.12), (num 3122.123). split.
    + intros H. apply (f_equal (fun p => this (fst p))) in H. discriminate H.
    + intros key t. unfold HMAC. do 3 f_equal.
  - exists (num 12), (num 3.5), (num 1), (num 23.5). split.
    + intros H. apply (f_equal (fun p => this (fst p))) in H. discriminate H.
    + intros key lng. unfold HMAC. f_equal.
Qed.




